(** * Shallow embedding of pybinding's scalar dispatch, foundation indexing and
      KPM front end (cppcore/include/numeric/arrayref.hpp,
      cppcore/src/system/Foundation.cpp, cppmodule/src/kpm.cpp). *)

From Stdlib Require Import String List Bool ZArith Lia.
Import ListNotations.
Open Scope Z_scope.

(* ------------------------------------------------------------------ *)
(** ** numeric/arrayref.hpp *)

Module Num.

(** [enum class Tag {f32, cf32, f64, cf64, b, i8, i16, i32, i64, u8, u16, u32, u64}] *)
Inductive Tag :=
  | f32 | cf32 | f64 | cf64 | b | i8 | i16 | i32 | i64 | u8 | u16 | u32 | u64.

Definition Tag_eqb (x y : Tag) : bool :=
  match x, y with
  | f32, f32 | cf32, cf32 | f64, f64 | cf64, cf64 | b, b
  | i8, i8 | i16, i16 | i32, i32 | i64, i64
  | u8, u8 | u16, u16 | u32, u32 | u64, u64 => true
  | _, _ => false
  end.

(** The C++ scalar types for which [detail::get_tag] is specialised. *)
Inductive Scalar :=
  | float | complex_float | double | complex_double | bool_t
  | int8_t | int16_t | int32_t | int64_t
  | uint8_t | uint16_t | uint32_t | uint64_t.

(** [detail::get_tag<scalar_t>()] *)
Definition get_tag (s : Scalar) : Tag :=
  match s with
  | float => f32 | complex_float => cf32 | double => f64 | complex_double => cf64
  | bool_t => b | int8_t => i8 | int16_t => i16 | int32_t => i32 | int64_t => i64
  | uint8_t => u8 | uint16_t => u16 | uint32_t => u32 | uint64_t => u64
  end.

(** [BasicArrayRef<is_const>]: tag, row-major flag, data handle (an address),
    rows and cols.  [ArrayConstRef] and [ArrayRef] differ only in the
    constness of the pointer, recorded here in the type name. *)
Record BasicArrayRef := mkArrayRef {
  tag : Tag;
  is_row_major : bool;
  data : Z;
  rows : Z;
  cols : Z
}.

Definition ArrayConstRef := BasicArrayRef.
Definition ArrayRef := BasicArrayRef.

(** A C++ call that returns a value or throws [std::runtime_error]. *)
Inductive Result (A : Type) :=
  | Ok (a : A)
  | Throw (what : string).
Arguments Ok {A} a.
Arguments Throw {A} what.

(** [VariantArrayConstRef<Scalar, Scalars...>] / [VariantArrayRef<...>]:
    the base reference plus the declared type list [TypeList<Scalar, Scalars...>]. *)
Record Variant := mkVariant {
  First : Scalar;
  Rest : list Scalar;
  vref : BasicArrayRef
}.

Definition Types (v : Variant) : list Scalar := First v :: Rest v.

(** [std::none_of(possible_tags, [&](Tag tag) { return other.tag == tag; })] *)
Definition none_of_tag (t : Tag) (possible_tags : list Tag) : bool :=
  forallb (fun tg => negb (Tag_eqb t tg)) possible_tags.

(** [VariantArrayConstRef(ArrayConstRef const& other)] *)
Definition VariantArrayConstRef (s : Scalar) (ss : list Scalar) (other : ArrayConstRef)
  : Result Variant :=
  let possible_tags := get_tag s :: map get_tag ss in
  if none_of_tag (tag other) possible_tags
  then Throw "Invalid VariantArrayConstRef assignment"
  else Ok (mkVariant s ss other).

(** [VariantArrayConstRef(ArrayRef const& a)]: delegates after copying the fields. *)
Definition VariantArrayConstRef_of_mut (s : Scalar) (ss : list Scalar) (a : ArrayRef)
  : Result Variant :=
  VariantArrayConstRef s ss
    (mkArrayRef (tag a) (is_row_major a) (data a) (rows a) (cols a)).

(** [VariantArrayRef(ArrayRef const& other)] *)
Definition VariantArrayRef (s : Scalar) (ss : list Scalar) (other : ArrayRef)
  : Result Variant :=
  let possible_tags := get_tag s :: map get_tag ss in
  if none_of_tag (tag other) possible_tags
  then Throw "Invalid VariantArrayRef assignment"
  else Ok (mkVariant s ss other).

(** [ComplexArrayConstRef = VariantArrayConstRef<float, double,
    std::complex<float>, std::complex<double>>] *)
Definition ComplexArrayConstRef := VariantArrayConstRef float [double; complex_float; complex_double].
Definition RealArrayConstRef := VariantArrayConstRef float [double].

(** [MakeContainer<Container<Scalar>>::make(ref)]: a container statically bound to
    [Scalar] over the reference's memory.  The specialisations live with the
    concrete containers; what the dispatch fixes is the pair (type, view). *)
Record Container := MakeContainer {
  c_scalar : Scalar;
  c_ref : BasicArrayRef
}.

(** The outcome of a dispatch, with the log of invocations of the user's
    function (the C++ lambda may have effects; the log records each call). *)
Inductive Outcome (R C : Type) :=
  | Returned (r : R) (log : list C)
  | Threw (what : string) (log : list C).
Arguments Returned {R C} r log.
Arguments Threw {R C} what log.

Section Match.
Context {R : Type}.

(** [detail::try_match]: both overloads, by recursion on the type list. *)
Fixpoint try_match (ref : BasicArrayRef) (lambda : Container -> R)
    (types : list Scalar) (log : list Container) : Outcome R Container :=
  match types with
  | [] => Threw "A match was not found" log
  | s :: tail =>
      if Tag_eqb (tag ref) (get_tag s)
      then let c := MakeContainer s ref in Returned (lambda c) (log ++ [c])
      else try_match ref lambda tail log
  end.

(** [num::match] *)
Definition match_ (v : Variant) (lambda : Container -> R) (log : list Container)
  : Outcome R Container :=
  try_match (vref v) lambda (Types v) log.

(** [detail::try_match2] over a list of [TypeList<Scalar1, Scalar2>]. *)
Fixpoint try_match2 (ref1 ref2 : BasicArrayRef) (lambda : Container -> Container -> R)
    (pairs : list (Scalar * Scalar)) (log : list (Container * Container))
  : Outcome R (Container * Container) :=
  match pairs with
  | [] => Threw "A match was not found" log
  | (s1, s2) :: tail =>
      if Tag_eqb (tag ref1) (get_tag s1) && Tag_eqb (tag ref2) (get_tag s2)
      then let c1 := MakeContainer s1 ref1 in
           let c2 := MakeContainer s2 ref2 in
           Returned (lambda c1 c2) (log ++ [(c1, c2)])
      else try_match2 ref1 ref2 lambda tail log
  end.

End Match.

(** Modelled from the spec: [tl::Combinations<L1, L2>] (detail/typelist.hpp, not
    in this tree), the Cartesian product of the two type lists, every pair
    [TypeList<T1, T2>] with [T1] from [L1] and [T2] from [L2]. *)
Definition Combinations (l1 l2 : list Scalar) : list (Scalar * Scalar) :=
  flat_map (fun s1 => map (fun s2 => (s1, s2)) l2) l1.

(** Modelled from the spec: [num::get_real_t<T>] (numeric/traits.hpp, not in this
    tree): the real type underlying [std::complex<T>] is [T]; any other type is
    its own real type. *)
Definition get_real_t (s : Scalar) : Scalar :=
  match s with
  | complex_float => float
  | complex_double => double
  | s => s
  end.

Definition Scalar_eqb (s1 s2 : Scalar) : bool := Tag_eqb (get_tag s1) (get_tag s2).

(** [detail::IsSamePrecision<TypeList<T1, T2>>::value] *)
Definition IsSamePrecision (p : Scalar * Scalar) : bool :=
  Scalar_eqb (get_real_t (fst p)) (get_real_t (snd p)).

(** Modelled from the spec: [tl::Filter<List, Pred>] keeps, in order, the
    elements whose [Pred<...>::value] is true. *)
Definition Filter (l : list (Scalar * Scalar)) (pred : Scalar * Scalar -> bool)
  : list (Scalar * Scalar) :=
  filter pred l.

Section Match2.
Context {R : Type}.

(** [num::match2] *)
Definition match2 (v1 v2 : Variant) (lambda : Container -> Container -> R)
    (log : list (Container * Container)) : Outcome R (Container * Container) :=
  let List := Combinations (Types v1) (Types v2) in
  try_match2 (vref v1) (vref v2) lambda List log.

(** [num::match2sp] *)
Definition match2sp (v1 v2 : Variant) (lambda : Container -> Container -> R)
    (log : list (Container * Container)) : Outcome R (Container * Container) :=
  let List := Combinations (Types v1) (Types v2) in
  let FilteredList := Filter List IsSamePrecision in
  try_match2 (vref v1) (vref v2) lambda FilteredList log.

End Match2.

(** *** Properties *)

Lemma Tag_eqb_spec (x y : Tag) : Tag_eqb x y = true <-> x = y.
Proof. destruct x, y; simpl; split; congruence. Qed.

Lemma Tag_eqb_refl (x : Tag) : Tag_eqb x x = true.
Proof. apply Tag_eqb_spec; reflexivity. Qed.

Lemma Tag_eqb_false (x y : Tag) : Tag_eqb x y = false <-> x <> y.
Proof.
  rewrite <- Tag_eqb_spec. destruct (Tag_eqb x y); split; congruence.
Qed.

Lemma get_tag_inj (s1 s2 : Scalar) : get_tag s1 = get_tag s2 -> s1 = s2.
Proof. destruct s1, s2; simpl; congruence. Qed.

Lemma Tag_eq_dec (x y : Tag) : {x = y} + {x <> y}.
Proof. decide equality. Defined.

(** A pair of scalar types whose tags are the two references' tags. *)
Definition matches2 (ref1 ref2 : BasicArrayRef) (p : Scalar * Scalar) : Prop :=
  get_tag (fst p) = tag ref1 /\ get_tag (snd p) = tag ref2.

(** [p] is the first pair of [l] that [matches2]. *)
Definition FirstMatch2 (l : list (Scalar * Scalar)) (ref1 ref2 : BasicArrayRef)
    (p : Scalar * Scalar) : Prop :=
  exists pre post, l = pre ++ p :: post /\
    Forall (fun q => ~ matches2 ref1 ref2 q) pre /\ matches2 ref1 ref2 p.

Section MatchProofs.
Context {R : Type}.

Lemma try_match_not_found (ref : BasicArrayRef) (lambda : Container -> R)
    (types : list Scalar) (log : list Container) :
  ~ In (tag ref) (map get_tag types) ->
  try_match ref lambda types log = Threw "A match was not found" log.
Proof.
  induction types as [|s tl IH]; intros Hn; simpl; [reflexivity|].
  simpl in Hn.
  destruct (Tag_eqb (tag ref) (get_tag s)) eqn:E.
  - apply Tag_eqb_spec in E. exfalso. apply Hn. left. congruence.
  - apply IH. intros H. apply Hn. right. exact H.
Qed.

Lemma try_match_found (ref : BasicArrayRef) (lambda : Container -> R)
    (types : list Scalar) (log : list Container) :
  In (tag ref) (map get_tag types) ->
  exists pre s post,
    types = pre ++ s :: post /\
    Forall (fun t => get_tag t <> tag ref) pre /\
    get_tag s = tag ref /\
    try_match ref lambda types log =
      Returned (lambda (MakeContainer s ref)) (log ++ [MakeContainer s ref]).
Proof.
  induction types as [|s tl IH]; intros Hin; simpl in Hin; [contradiction|].
  simpl. destruct (Tag_eqb (tag ref) (get_tag s)) eqn:E.
  - apply Tag_eqb_spec in E.
    exists [], s, tl. repeat split; auto.
  - apply Tag_eqb_false in E.
    destruct Hin as [Hs | Hin]; [congruence|].
    destruct (IH Hin) as (pre & s' & post & -> & Hpre & Hs' & Hrun).
    exists (s :: pre), s', post. repeat split; auto.
Qed.

Lemma try_match2_not_found (ref1 ref2 : BasicArrayRef)
    (lambda : Container -> Container -> R) (pairs : list (Scalar * Scalar))
    (log : list (Container * Container)) :
  Forall (fun q => ~ matches2 ref1 ref2 q) pairs ->
  try_match2 ref1 ref2 lambda pairs log = Threw "A match was not found" log.
Proof.
  induction pairs as [|[s1 s2] tl IH]; intros Hn; simpl; [reflexivity|].
  inversion Hn as [|? ? Hq Htl]; subst.
  destruct (Tag_eqb (tag ref1) (get_tag s1)) eqn:E1;
  destruct (Tag_eqb (tag ref2) (get_tag s2)) eqn:E2; simpl; auto.
  apply Tag_eqb_spec in E1, E2. exfalso. apply Hq. split; simpl; congruence.
Qed.

Lemma try_match2_first (ref1 ref2 : BasicArrayRef)
    (lambda : Container -> Container -> R) (pairs : list (Scalar * Scalar))
    (log : list (Container * Container)) (p : Scalar * Scalar) :
  FirstMatch2 pairs ref1 ref2 p ->
  try_match2 ref1 ref2 lambda pairs log =
    Returned (lambda (MakeContainer (fst p) ref1) (MakeContainer (snd p) ref2))
             (log ++ [(MakeContainer (fst p) ref1, MakeContainer (snd p) ref2)]).
Proof.
  intros (pre & post & -> & Hpre & [Hm1 Hm2]).
  induction pre as [|[q1 q2] pre IH]; simpl.
  - destruct p as [s1 s2]; simpl in *.
    rewrite Hm1, Hm2, !Tag_eqb_refl. reflexivity.
  - inversion Hpre as [|? ? Hq Htl]; subst.
    destruct (Tag_eqb (tag ref1) (get_tag q1)) eqn:E1;
    destruct (Tag_eqb (tag ref2) (get_tag q2)) eqn:E2; simpl; auto.
    apply Tag_eqb_spec in E1, E2. exfalso. apply Hq. split; simpl; congruence.
Qed.

End MatchProofs.

Lemma first_match2_exists (ref1 ref2 : BasicArrayRef) (l : list (Scalar * Scalar))
    (p : Scalar * Scalar) :
  In p l -> matches2 ref1 ref2 p -> exists q, FirstMatch2 l ref1 ref2 q.
Proof.
  induction l as [|q l IH]; intros Hin Hm; [contradiction|].
  destruct (Tag_eq_dec (get_tag (fst q)) (tag ref1)) as [E1|E1];
  [destruct (Tag_eq_dec (get_tag (snd q)) (tag ref2)) as [E2|E2]|].
  - exists q, [], l. repeat split; auto.
  - destruct Hin as [<- | Hin]; [destruct Hm; contradiction|].
    destruct (IH Hin Hm) as (q' & pre & post & -> & Hpre & Hq').
    exists q', (q :: pre), post. split; [reflexivity|]. split; [|exact Hq'].
    constructor; auto. intros [_ H]. contradiction.
  - destruct Hin as [<- | Hin]; [destruct Hm; contradiction|].
    destruct (IH Hin Hm) as (q' & pre & post & -> & Hpre & Hq').
    exists q', (q :: pre), post. split; [reflexivity|]. split; [|exact Hq'].
    constructor; auto. intros [H _]. contradiction.
Qed.

Lemma matches2_unique (ref1 ref2 : BasicArrayRef) (p q : Scalar * Scalar) :
  matches2 ref1 ref2 p -> matches2 ref1 ref2 q -> p = q.
Proof.
  destruct p as [p1 p2], q as [q1 q2]; intros [H1 H2] [H3 H4]; simpl in *.
  f_equal; apply get_tag_inj; congruence.
Qed.

Lemma In_Combinations (l1 l2 : list Scalar) (s1 s2 : Scalar) :
  In (s1, s2) (Combinations l1 l2) <-> In s1 l1 /\ In s2 l2.
Proof.
  unfold Combinations. rewrite in_flat_map. split.
  - intros (x & Hx & Hin). apply in_map_iff in Hin as (y & E & Hy).
    inversion E; subst. auto.
  - intros [H1 H2]. exists s1. split; auto. apply in_map_iff. exists s2. auto.
Qed.

Lemma first_match2_of_in (ref1 ref2 : BasicArrayRef) (l : list (Scalar * Scalar))
    (p : Scalar * Scalar) :
  In p l -> matches2 ref1 ref2 p -> FirstMatch2 l ref1 ref2 p.
Proof.
  intros Hin Hm. destruct (first_match2_exists ref1 ref2 l p Hin Hm) as [q Hq].
  assert (q = p) as ->; [|exact Hq].
  destruct Hq as (pre & post & _ & _ & Hq). eapply matches2_unique; eauto.
Qed.

(** *** Claims on the scalar dispatch *)

(** C1: for a variant reference whose tag is in its declared type set, [match]
    calls the operation exactly once (one new entry in the log), on the
    container of the first declared scalar type whose tag is the reference's
    tag, and returns what the operation returns. *)
Theorem match_invokes_first_matching_type {R : Type} (v : Variant)
    (lambda : Container -> R) (log : list Container)
    (Hin : In (tag (vref v)) (map get_tag (Types v))) :
  exists pre s post,
    Types v = pre ++ s :: post /\
    Forall (fun t => get_tag t <> tag (vref v)) pre /\
    get_tag s = tag (vref v) /\
    match_ v lambda log =
      Returned (lambda (MakeContainer s (vref v))) (log ++ [MakeContainer s (vref v)]).
Proof. unfold match_. apply try_match_found; exact Hin. Qed.

(** C3: when the tag (or the pair of tags) matches no candidate of the list,
    the dispatch throws "A match was not found" without calling the operation;
    when a candidate matches, it does not throw but returns after one call. *)
Theorem dispatch_no_match_error_iff {R : Type} :
  (forall ref (lambda : Container -> R) types log,
     ~ In (tag ref) (map get_tag types) ->
     try_match ref lambda types log = Threw "A match was not found" log) /\
  (forall ref (lambda : Container -> R) types log,
     In (tag ref) (map get_tag types) ->
     exists r c, try_match ref lambda types log = Returned r (log ++ [c])) /\
  (forall ref1 ref2 (lambda : Container -> Container -> R) pairs log,
     ~ Exists (matches2 ref1 ref2) pairs ->
     try_match2 ref1 ref2 lambda pairs log = Threw "A match was not found" log) /\
  (forall ref1 ref2 (lambda : Container -> Container -> R) pairs log,
     Exists (matches2 ref1 ref2) pairs ->
     exists r c, try_match2 ref1 ref2 lambda pairs log = Returned r (log ++ [c])).
Proof.
  split; [|split; [|split]].
  - intros. apply try_match_not_found; assumption.
  - intros ref lambda types log Hin.
    destruct (try_match_found ref lambda types log Hin) as (_ & s & _ & _ & _ & _ & ->).
    eauto.
  - intros ref1 ref2 lambda pairs log Hn. apply try_match2_not_found.
    apply Forall_forall. intros q Hq Hm. apply Hn, Exists_exists. eauto.
  - intros ref1 ref2 lambda pairs log Hex.
    apply Exists_exists in Hex as (p & Hp & Hm).
    destruct (first_match2_exists ref1 ref2 pairs p Hp Hm) as [q Hq].
    rewrite (try_match2_first ref1 ref2 lambda pairs log q Hq). eauto.
Qed.

Lemma mkArrayRef_eta (a : BasicArrayRef) :
  mkArrayRef (tag a) (is_row_major a) (data a) (rows a) (cols a) = a.
Proof. destruct a; reflexivity. Qed.

Lemma none_of_tag_spec (t : Tag) (tags : list Tag) :
  none_of_tag t tags = true <-> ~ In t tags.
Proof.
  unfold none_of_tag. rewrite forallb_forall. split.
  - intros H Hin. specialize (H t Hin). rewrite Tag_eqb_refl in H. discriminate.
  - intros H x Hx. destruct (Tag_eqb t x) eqn:E; [|reflexivity].
    apply Tag_eqb_spec in E. subst. contradiction.
Qed.

(** C4: the three constructors of a variant reference throw their
    type-mismatch error exactly when the source tag is outside the declared
    set; otherwise they succeed and the view keeps the source's tag, row-major
    flag, data handle, rows and cols. *)
Theorem variant_ref_construction (s : Scalar) (ss : list Scalar) (a : BasicArrayRef) :
  let allowed := map get_tag (s :: ss) in
  (~ In (tag a) allowed ->
     VariantArrayConstRef s ss a = Throw "Invalid VariantArrayConstRef assignment" /\
     VariantArrayConstRef_of_mut s ss a = Throw "Invalid VariantArrayConstRef assignment" /\
     VariantArrayRef s ss a = Throw "Invalid VariantArrayRef assignment") /\
  (In (tag a) allowed ->
     exists v, VariantArrayConstRef s ss a = Ok v /\
       VariantArrayConstRef_of_mut s ss a = Ok v /\
       VariantArrayRef s ss a = Ok v /\
       Types v = s :: ss /\
       tag (vref v) = tag a /\ is_row_major (vref v) = is_row_major a /\
       data (vref v) = data a /\ rows (vref v) = rows a /\ cols (vref v) = cols a).
Proof.
  intros allowed. unfold allowed. simpl map.
  unfold VariantArrayConstRef_of_mut. rewrite mkArrayRef_eta.
  unfold VariantArrayConstRef, VariantArrayRef.
  split.
  - intros Hn. apply none_of_tag_spec in Hn. rewrite Hn. auto.
  - intros Hin. destruct (none_of_tag (tag a) (get_tag s :: map get_tag ss)) eqn:E.
    + apply none_of_tag_spec in E. contradiction.
    + exists (mkVariant s ss a). repeat split.
Qed.

(** C5: [match2] matches over the whole Cartesian product of the two type
    lists and calls the operation on its first pair whose tags are both the
    references' tags; [match2sp] does the same over the pairs of that product
    whose types have the same real precision, and throws when the matching
    pair has mixed precision. *)
Theorem match2_and_match2sp_select {R : Type} (v1 v2 : Variant) (s1 s2 : Scalar)
    (lambda : Container -> Container -> R) (log : list (Container * Container))
    (H1 : In s1 (Types v1)) (H2 : In s2 (Types v2))
    (E1 : get_tag s1 = tag (vref v1)) (E2 : get_tag s2 = tag (vref v2)) :
  let c1 := MakeContainer s1 (vref v1) in
  let c2 := MakeContainer s2 (vref v2) in
  FirstMatch2 (Combinations (Types v1) (Types v2)) (vref v1) (vref v2) (s1, s2) /\
  match2 v1 v2 lambda log = Returned (lambda c1 c2) (log ++ [(c1, c2)]) /\
  (IsSamePrecision (s1, s2) = true ->
     FirstMatch2 (Filter (Combinations (Types v1) (Types v2)) IsSamePrecision)
       (vref v1) (vref v2) (s1, s2) /\
     match2sp v1 v2 lambda log = Returned (lambda c1 c2) (log ++ [(c1, c2)])) /\
  (IsSamePrecision (s1, s2) = false ->
     match2sp v1 v2 lambda log = Threw "A match was not found" log).
Proof.
  intros c1 c2.
  assert (Hm : matches2 (vref v1) (vref v2) (s1, s2)) by (split; assumption).
  assert (Hc : In (s1, s2) (Combinations (Types v1) (Types v2)))
    by (apply In_Combinations; auto).
  assert (HF : FirstMatch2 (Combinations (Types v1) (Types v2)) (vref v1) (vref v2) (s1, s2))
    by (apply first_match2_of_in; assumption).
  split; [exact HF|]. split.
  - unfold match2. apply (try_match2_first _ _ _ _ _ (s1, s2) HF).
  - split.
    + intros Hp.
      assert (HF' : FirstMatch2 (Filter (Combinations (Types v1) (Types v2)) IsSamePrecision)
                     (vref v1) (vref v2) (s1, s2)).
      { apply first_match2_of_in; [|assumption]. unfold Filter. apply filter_In. auto. }
      split; [exact HF'|].
      unfold match2sp. apply (try_match2_first _ _ _ _ _ (s1, s2) HF').
    + intros Hp. unfold match2sp. apply try_match2_not_found.
      apply Forall_forall. intros q Hq Hmq.
      unfold Filter in Hq. apply filter_In in Hq as [_ Hq].
      rewrite (matches2_unique _ _ _ _ Hmq Hm) in Hq. congruence.
Qed.

(** C8: a float32 view and a float64 view are each accepted by
    [ComplexArrayConstRef], yet [match2sp] on them throws "A match was not
    found": the precision filter removes the only pair of tags that matches. *)
Theorem match2sp_mixed_precision_throws :
  exists a1 a2 v1 v2,
    tag a1 = f32 /\ tag a2 = f64 /\
    ComplexArrayConstRef a1 = Ok v1 /\ ComplexArrayConstRef a2 = Ok v2 /\
    forall (R : Type) (lambda : Container -> Container -> R) log,
      match2sp v1 v2 lambda log = Threw "A match was not found" log.
Proof.
  exists (mkArrayRef f32 true 4096 1 8), (mkArrayRef f64 true 8192 1 8).
  eexists. eexists.
  split; [reflexivity|]. split; [reflexivity|].
  split; [reflexivity|]. split; [reflexivity|].
  intros R lambda log. reflexivity.
Qed.

End Num.

(* ------------------------------------------------------------------ *)
(** ** system/Foundation.cpp *)

Module Foundation.

(** The part of a [Foundation] the code below reads: [is_valid] (the array
    returned by [get_states()], one flag per site, [get_num_sites()] entries)
    and, per site index, the indices of its in-bounds neighbours as
    [Site::for_each_neighbour] visits them (one per hopping of the site's
    sublattice that stays inside the foundation; Foundation.hpp is not in
    this tree). *)
Record Foundation := mkFoundation {
  is_valid : list bool;
  neighbours : list (list nat)
}.

Definition get_num_sites (f : Foundation) : nat := length (is_valid f).

(** Eigen array element write [a[i] = x] (in bounds in every use below). *)
Fixpoint set_at {A : Type} (l : list A) (i : nat) (x : A) : list A :=
  match l, i with
  | [], _ => []
  | _ :: tl, O => x :: tl
  | y :: tl, S i' => y :: set_at tl i' x
  end.

(** [HamiltonianIndices]: [ArrayX<int> indices; int num_valid_sites]. *)
Record HamiltonianIndices := mkHamiltonianIndices {
  indices : list Z;
  num_valid_sites : Z
}.

(** The body of [for (auto i = 0; i < get_num_sites(); ++i)], from index [i],
    [k] iterations left. *)
Fixpoint assign_indices (is_valid : list bool) (i k : nat) (h : HamiltonianIndices)
  : HamiltonianIndices :=
  match k with
  | O => h
  | S k' =>
      let h' := if nth i is_valid false
                then mkHamiltonianIndices (set_at (indices h) i (num_valid_sites h))
                                          (num_valid_sites h + 1)
                else h in
      assign_indices is_valid (S i) k' h'
  end.

(** [HamiltonianIndices::HamiltonianIndices(Foundation const&)] *)
Definition make_HamiltonianIndices (foundation : Foundation) : HamiltonianIndices :=
  let n := get_num_sites foundation in
  assign_indices (is_valid foundation) 0 n
    (mkHamiltonianIndices (repeat (-1) n) 0).

(** Number of valid sites in a flag array. *)
Fixpoint count_valid (l : list bool) : nat :=
  match l with
  | [] => O
  | true :: tl => S (count_valid tl)
  | false :: tl => count_valid tl
  end.

(** [int16_t] store of an [int] value (two's complement wrap-around). *)
Definition wrap_int16 (x : Z) : Z := ((x + 32768) mod 65536) - 32768.

(** [detail::count_neighbors]: per site, the number of hoppings of its
    sublattice minus those leaving the foundation, i.e. the number of
    in-bounds neighbours, stored as [int16_t]. *)
Definition count_neighbors (foundation : Foundation) : list Z :=
  map (fun i => wrap_int16 (Z.of_nat (length (nth i (neighbours foundation) []))))
      (seq 0 (get_num_sites foundation)).

(** The state [remove_dangling] works on: the foundation's [is_valid] flags,
    the [neighbor_count] array, and a counter of the recursive calls of
    [clear_neighbors] made so far. *)
Record DanglingState := mkDanglingState {
  states : list bool;
  neighbor_count : list Z;
  recursive_calls : nat
}.

(** [site.set_valid(x)] *)
Definition set_valid (i : nat) (x : bool) (st : DanglingState) : DanglingState :=
  mkDanglingState (set_at (states st) i x) (neighbor_count st) (recursive_calls st).

(** [neighbor_count[i] = c] *)
Definition set_count (i : nat) (c : Z) (st : DanglingState) : DanglingState :=
  mkDanglingState (states st) (set_at (neighbor_count st) i c) (recursive_calls st).

Definition count_call (st : DanglingState) : DanglingState :=
  mkDanglingState (states st) (neighbor_count st) (S (recursive_calls st)).

(** [site.for_each_neighbour(lambda)]: the lambda runs on each neighbour in
    turn, threading the state. *)
Fixpoint for_each_neighbour (lambda : nat -> DanglingState -> option DanglingState)
    (ns : list nat) (st : DanglingState) : option DanglingState :=
  match ns with
  | [] => Some st
  | neighbor :: rest =>
      match lambda neighbor st with
      | Some st' => for_each_neighbour lambda rest st'
      | None => None
      end
  end.

Section ClearNeighbors.
Variable neighbours_of : list (list nat).
Variable min_neighbors : Z.

(** [detail::clear_neighbors(site, neighbor_count, min_neighbors)].  The C++
    recursion is unbounded; here [depth] bounds the nesting of calls and
    [None] means a call nest deeper than [depth] would be needed. *)
Fixpoint clear_neighbors (depth : nat) (site : nat) (st : DanglingState)
  : option DanglingState :=
  match depth with
  | O => None
  | S depth' =>
      if Z.eqb (nth site (neighbor_count st) 0) 0 then Some st else
      let lambda := fun (neighbor : nat) (st : DanglingState) =>
        if negb (nth neighbor (states st) false) then Some st else
        let c := wrap_int16 (nth neighbor (neighbor_count st) 0 - 1) in
        let st := set_count neighbor c st in
        if c <? min_neighbors
        then clear_neighbors depth' neighbor (count_call (set_valid neighbor false st))
        else Some st in
      match for_each_neighbour lambda (nth site neighbours_of []) st with
      | Some st' => Some (set_count site 0 st')
      | None => None
      end
  end.

(** [for (auto& site : foundation) if (!site.is_valid()) clear_neighbors(...)],
    from site [i] with [k] sites left, each top-level call allowed a nesting
    depth of [depth]. *)
Fixpoint remove_loop (depth : nat) (i k : nat) (st : DanglingState)
  : option DanglingState :=
  match k with
  | O => Some st
  | S k' =>
      if negb (nth i (states st) false)
      then match clear_neighbors depth i st with
           | Some st' => remove_loop depth (S i) k' st'
           | None => None
           end
      else remove_loop depth (S i) k' st
  end.

End ClearNeighbors.

(** [remove_dangling(foundation, min_neighbors)], each top-level call of
    [clear_neighbors] allowed a call nest as deep as the number of sites. *)
Definition remove_dangling (foundation : Foundation) (min_neighbors : Z)
  : option DanglingState :=
  let n := get_num_sites foundation in
  remove_loop (neighbours foundation) min_neighbors n 0 n
    (mkDanglingState (is_valid foundation) (count_neighbors foundation) 0).

(** *** Properties of the index assignment *)

Lemma length_set_at {A : Type} (l : list A) (i : nat) (x : A) :
  length (set_at l i x) = length l.
Proof. revert i; induction l as [|y tl IH]; intros [|i]; simpl; auto. Qed.

Lemma nth_set_at_eq {A : Type} (l : list A) (i : nat) (x d : A) :
  (i < length l)%nat -> nth i (set_at l i x) d = x.
Proof.
  revert i; induction l as [|y tl IH]; intros [|i] Hi; simpl in *; try lia; auto.
  apply IH. lia.
Qed.

Lemma nth_set_at_neq {A : Type} (l : list A) (i j : nat) (x d : A) :
  i <> j -> nth j (set_at l i x) d = nth j l d.
Proof.
  revert i j; induction l as [|y tl IH]; intros [|i] [|j] Hij; simpl; try lia; auto.
Qed.

Lemma count_valid_firstn_S (v : list bool) (i : nat) :
  (i < length v)%nat ->
  count_valid (firstn (S i) v) =
    (count_valid (firstn i v) + (if nth i v false then 1 else 0))%nat.
Proof.
  revert i; induction v as [|x tl IH]; intros [|i] Hi; simpl in Hi; try lia.
  - destruct x; reflexivity.
  - change (firstn (S (S i)) (x :: tl)) with (x :: firstn (S i) tl).
    change (firstn (S i) (x :: tl)) with (x :: firstn i tl).
    change (nth (S i) (x :: tl) false) with (nth i tl false).
    specialize (IH i ltac:(lia)).
    destruct x; cbn [count_valid]; lia.
Qed.

Lemma count_valid_firstn_mono (v : list bool) (i j : nat) :
  (i <= j)%nat -> (count_valid (firstn i v) <= count_valid (firstn j v))%nat.
Proof.
  revert i j; induction v as [|x tl IH]; intros [|i] [|j] Hij; try (simpl; lia).
  change (firstn (S j) (x :: tl)) with (x :: firstn j tl).
  change (firstn (S i) (x :: tl)) with (x :: firstn i tl).
  specialize (IH i j ltac:(lia)). destruct x; cbn [count_valid]; lia.
Qed.

Lemma count_valid_firstn_le (v : list bool) (i : nat) :
  (count_valid (firstn i v) <= count_valid v)%nat.
Proof.
  destruct (Nat.le_gt_cases i (length v)) as [H|H].
  - rewrite <- (firstn_all v) at 2. apply count_valid_firstn_mono; assumption.
  - rewrite firstn_all2 by lia. lia.
Qed.

Lemma count_valid_surj (v : list bool) (k : nat) :
  (k < count_valid v)%nat ->
  exists i, (i < length v)%nat /\ nth i v false = true /\ count_valid (firstn i v) = k.
Proof.
  revert k; induction v as [|x tl IH]; intros k Hk; simpl in *; [lia|].
  destruct x.
  - destruct k as [|k].
    + exists O. simpl. repeat split; lia.
    + destruct (IH k) as (i & Hi & Hv & Hc); [lia|].
      exists (S i). simpl. repeat split; try lia; auto.
  - destruct (IH k Hk) as (i & Hi & Hv & Hc).
    exists (S i). simpl. repeat split; try lia; auto.
Qed.

Lemma ltb_S_neq (i j : nat) : j <> i -> (j <? S i)%nat = (j <? i)%nat.
Proof. intros H. destruct (Nat.ltb_spec j i), (Nat.ltb_spec j (S i)); auto; lia. Qed.

(** The index a site has once the loop has passed [i] sites. *)
Definition expected (v : list bool) (i j : nat) : Z :=
  if (j <? i)%nat && nth j v false then Z.of_nat (count_valid (firstn j v)) else -1.

Definition Inv (v : list bool) (i : nat) (h : HamiltonianIndices) : Prop :=
  length (indices h) = length v /\
  num_valid_sites h = Z.of_nat (count_valid (firstn i v)) /\
  forall j, (j < length v)%nat -> nth j (indices h) (-1) = expected v i j.

Lemma assign_indices_inv (v : list bool) :
  forall k i h, (i + k = length v)%nat -> Inv v i h ->
  Inv v (length v) (assign_indices v i k h).
Proof.
  induction k as [|k IH]; intros i h Hik Hinv; simpl.
  - replace (length v) with i by lia. exact Hinv.
  - apply IH; [lia|].
    destruct Hinv as (Hlen & Hnum & Hnth).
    assert (Hi : (i < length v)%nat) by lia.
    pose proof (count_valid_firstn_S v i Hi) as HS.
    unfold Inv. destruct (nth i v false) eqn:Ev; cbn [indices num_valid_sites].
    + split; [|split].
      * rewrite length_set_at. exact Hlen.
      * rewrite Hnum, HS. lia.
      * intros j Hj. destruct (Nat.eq_dec i j) as [<-|Hne].
        -- rewrite nth_set_at_eq by lia. unfold expected.
           rewrite Ev.
           replace (i <? S i)%nat with true by (symmetry; apply Nat.ltb_lt; lia).
           simpl. exact Hnum.
        -- rewrite nth_set_at_neq by exact Hne. rewrite Hnth by exact Hj.
           unfold expected.
           rewrite ltb_S_neq by congruence. reflexivity.
    + split; [|split].
      * exact Hlen.
      * rewrite Hnum, HS. lia.
      * intros j Hj. rewrite Hnth by exact Hj. unfold expected.
        destruct (Nat.eq_dec i j) as [<-|Hne].
        -- rewrite Ev, !andb_false_r. reflexivity.
        -- rewrite ltb_S_neq by congruence. reflexivity.
Qed.

Lemma make_HamiltonianIndices_inv (foundation : Foundation) :
  Inv (is_valid foundation) (length (is_valid foundation))
      (make_HamiltonianIndices foundation).
Proof.
  unfold make_HamiltonianIndices, get_num_sites.
  apply assign_indices_inv; [lia|].
  split; [|split]; simpl.
  - apply repeat_length.
  - reflexivity.
  - intros j Hj. rewrite nth_repeat. reflexivity.
Qed.

Lemma make_HamiltonianIndices_nth (foundation : Foundation) (i : nat) :
  (i < get_num_sites foundation)%nat ->
  nth i (indices (make_HamiltonianIndices foundation)) (-1) =
    if nth i (is_valid foundation) false
    then Z.of_nat (count_valid (firstn i (is_valid foundation))) else -1.
Proof.
  intros Hi. destruct (make_HamiltonianIndices_inv foundation) as (_ & _ & Hnth).
  rewrite Hnth by exact Hi. unfold expected.
  replace (i <? length (is_valid foundation))%nat with true
    by (symmetry; apply Nat.ltb_lt; exact Hi).
  reflexivity.
Qed.

(** *** Claim on [HamiltonianIndices] *)

(** C9: after [HamiltonianIndices(foundation)], [indices[i]] is non-negative
    exactly for the valid sites, every invalid site keeps -1, and the valid
    sites receive 0 .. num_valid_sites-1 in increasing order of their site
    index: a strictly increasing map from the valid sites onto
    [0, num_valid_sites). *)
Theorem hamiltonian_indices_enumerate_valid_sites (foundation : Foundation) :
  let v := is_valid foundation in
  let n := get_num_sites foundation in
  let h := make_HamiltonianIndices foundation in
  let idx i := nth i (indices h) (-1) in
  length (indices h) = n /\
  num_valid_sites h = Z.of_nat (count_valid v) /\
  (forall i, (i < n)%nat -> (0 <= idx i <-> nth i v false = true)) /\
  (forall i, (i < n)%nat -> nth i v false = false -> idx i = -1) /\
  (forall i, (i < n)%nat -> nth i v false = true -> 0 <= idx i < num_valid_sites h) /\
  (forall i j, (i < j < n)%nat -> nth i v false = true -> nth j v false = true ->
     idx i < idx j) /\
  (forall k, 0 <= k < num_valid_sites h ->
     exists i, (i < n)%nat /\ nth i v false = true /\ idx i = k).
Proof.
  intros v n h idx.
  destruct (make_HamiltonianIndices_inv foundation) as (Hlen & Hnum & _).
  fold v h in Hlen, Hnum.
  rewrite firstn_all in Hnum.
  assert (Hidx : forall i, (i < n)%nat ->
            idx i = if nth i v false then Z.of_nat (count_valid (firstn i v)) else -1)
    by (intros i Hi; apply make_HamiltonianIndices_nth; exact Hi).
  assert (Hbound : forall i, (i < n)%nat -> nth i v false = true ->
            (count_valid (firstn i v) < count_valid v)%nat).
  { intros i Hi Hv. pose proof (count_valid_firstn_S v i Hi) as HS.
    rewrite Hv in HS. pose proof (count_valid_firstn_le v (S i)). lia. }
  split; [exact Hlen|]. split; [exact Hnum|]. split; [|split; [|split; [|split]]].
  - intros i Hi. rewrite (Hidx i Hi). destruct (nth i v false); split; intros; lia.
  - intros i Hi Hv. rewrite (Hidx i Hi), Hv. reflexivity.
  - intros i Hi Hv. rewrite (Hidx i Hi), Hv, Hnum. specialize (Hbound i Hi Hv). lia.
  - intros i j Hij Hvi Hvj.
    rewrite (Hidx i ltac:(lia)), (Hidx j ltac:(lia)), Hvi, Hvj.
    pose proof (count_valid_firstn_S v i ltac:(unfold n, get_num_sites in Hij; fold v in Hij; lia)) as HS.
    rewrite Hvi in HS.
    pose proof (count_valid_firstn_mono v (S i) j ltac:(lia)). lia.
  - intros k Hk. rewrite Hnum in Hk.
    destruct (count_valid_surj v (Z.to_nat k) ltac:(lia)) as (i & Hi & Hv & Hc).
    exists i. split; [exact Hi|]. split; [exact Hv|].
    rewrite (Hidx i Hi), Hv, Hc. lia.
Qed.

(** *** Properties of [remove_dangling] *)

Lemma count_valid_le_length (l : list bool) : (count_valid l <= length l)%nat.
Proof. induction l as [|[|] tl IH]; simpl; lia. Qed.

Lemma count_valid_lt_length (l : list bool) (i : nat) :
  (i < length l)%nat -> nth i l false = false -> (count_valid l < length l)%nat.
Proof.
  revert i; induction l as [|x tl IH]; intros [|i] Hi Hv; simpl in *; try lia.
  - subst x. pose proof (count_valid_le_length tl). lia.
  - specialize (IH i ltac:(lia) Hv). destruct x; lia.
Qed.

Lemma count_valid_set_false (l : list bool) (i : nat) :
  nth i l false = true -> S (count_valid (set_at l i false)) = count_valid l.
Proof.
  revert i; induction l as [|x tl IH]; intros [|i] Hv; simpl in *;
    try discriminate.
  - subst x. reflexivity.
  - rewrite <- (IH i Hv). destruct x; reflexivity.
Qed.

(** What one step of [remove_dangling] may do to its state: keep the number
    of sites, never validate a site again, and pay for every recursive call
    with one site turned invalid. *)
Definition Steps (st st' : DanglingState) : Prop :=
  length (states st') = length (states st) /\
  (count_valid (states st') <= count_valid (states st))%nat /\
  (recursive_calls st' + count_valid (states st') =
     recursive_calls st + count_valid (states st))%nat.

Lemma Steps_refl (st : DanglingState) : Steps st st.
Proof. unfold Steps; lia. Qed.

Lemma Steps_trans (st1 st2 st3 : DanglingState) :
  Steps st1 st2 -> Steps st2 st3 -> Steps st1 st3.
Proof. unfold Steps; lia. Qed.

Lemma Steps_set_count (st : DanglingState) (i : nat) (c : Z) :
  Steps st (set_count i c st).
Proof. unfold Steps, set_count; simpl; lia. Qed.

Lemma for_each_neighbour_steps (lambda : nat -> DanglingState -> option DanglingState)
    (bound : nat) :
  (forall nb st, (count_valid (states st) <= bound)%nat ->
     exists st', lambda nb st = Some st' /\ Steps st st') ->
  forall ns st, (count_valid (states st) <= bound)%nat ->
  exists st', for_each_neighbour lambda ns st = Some st' /\ Steps st st'.
Proof.
  intros Hl ns. induction ns as [|nb rest IH]; intros st Hst; simpl.
  - exists st. split; [reflexivity|apply Steps_refl].
  - destruct (Hl nb st Hst) as (st1 & -> & H1).
    destruct (IH st1) as (st2 & -> & H2); [destruct H1 as (_ & H1 & _); lia|].
    exists st2. split; [reflexivity|]. eapply Steps_trans; eauto.
Qed.

Lemma clear_neighbors_steps (nbs : list (list nat)) (min_neighbors : Z) :
  forall depth site st, (count_valid (states st) < depth)%nat ->
  exists st', clear_neighbors nbs min_neighbors depth site st = Some st' /\ Steps st st'.
Proof.
  induction depth as [|depth IH]; intros site st Hst; [lia|].
  simpl. destruct (Z.eqb _ 0).
  - exists st. split; [reflexivity|apply Steps_refl].
  - match goal with |- context [for_each_neighbour ?lam ?ns st] =>
      assert (Hlam : forall nb st1, (count_valid (states st1) <= depth)%nat ->
                exists st', lam nb st1 = Some st' /\ Steps st1 st');
      [|destruct (for_each_neighbour_steps lam depth Hlam ns st ltac:(lia))
          as (st' & -> & Hs)]
    end.
    + intros nb st1 Hst1. cbv beta.
      destruct (negb (nth nb (states st1) false)) eqn:Ev.
      * exists st1. split; [reflexivity|apply Steps_refl].
      * apply negb_false_iff in Ev.
        destruct (_ <? min_neighbors).
        -- set (st2 := count_call (set_valid nb false (set_count nb _ st1))).
           assert (Hc : S (count_valid (states st2)) = count_valid (states st1)).
           { unfold st2; simpl. apply count_valid_set_false. exact Ev. }
           destruct (IH nb st2) as (st3 & -> & H3); [lia|].
           exists st3. split; [reflexivity|].
           eapply Steps_trans; [|exact H3].
           unfold Steps, st2 in *; simpl in *. rewrite length_set_at. lia.
        -- eexists. split; [reflexivity|apply Steps_set_count].
    + eexists. split; [reflexivity|].
      eapply Steps_trans; [exact Hs|apply Steps_set_count].
Qed.

Lemma remove_loop_steps (nbs : list (list nat)) (min_neighbors : Z) (n : nat) :
  forall k i st, (i + k = n)%nat -> length (states st) = n ->
  exists st', remove_loop nbs min_neighbors n i k st = Some st' /\ Steps st st'.
Proof.
  induction k as [|k IH]; intros i st Hik Hlen; simpl.
  - exists st. split; [reflexivity|apply Steps_refl].
  - destruct (negb (nth i (states st) false)) eqn:Ev.
    + apply negb_true_iff in Ev.
      assert (Hlt : (count_valid (states st) < n)%nat).
      { rewrite <- Hlen. apply (count_valid_lt_length _ i); [lia|exact Ev]. }
      destruct (clear_neighbors_steps nbs min_neighbors n i st Hlt) as (st1 & -> & H1).
      destruct (IH (S i) st1) as (st2 & -> & H2); [lia|destruct H1; lia|].
      exists st2. split; [reflexivity|]. eapply Steps_trans; eauto.
    + apply IH; [lia|exact Hlen].
Qed.

(** *** Claim on [remove_dangling] *)

(** C10: [remove_dangling] terminates on every foundation and every
    [min_neighbors]: with every top-level [clear_neighbors] call limited to a
    call nest as deep as the number of sites it never runs out, each
    recursive call is paid for by one valid site turned invalid, so the
    recursive calls number at most the sites of the foundation; and a call of
    [clear_neighbors] on an invalid site, as [remove_dangling] makes them,
    finishes within a nest no deeper than the number of sites, with at most
    that many calls in all. *)
Theorem remove_dangling_terminates (foundation : Foundation) (min_neighbors : Z) :
  (exists st,
    remove_dangling foundation min_neighbors = Some st /\
    length (states st) = get_num_sites foundation /\
    (recursive_calls st + count_valid (states st) = count_valid (is_valid foundation))%nat /\
    (recursive_calls st <= get_num_sites foundation)%nat) /\
  (forall st0 site, (site < length (states st0))%nat -> nth site (states st0) false = false ->
     exists st1, clear_neighbors (neighbours foundation) min_neighbors
                   (length (states st0)) site st0 = Some st1 /\
     (S (recursive_calls st1 - recursive_calls st0) <= length (states st0))%nat).
Proof.
  split.
  - unfold remove_dangling.
    destruct (remove_loop_steps (neighbours foundation) min_neighbors
                (get_num_sites foundation) (get_num_sites foundation) 0
                (mkDanglingState (is_valid foundation) (count_neighbors foundation) 0)
                eq_refl eq_refl) as (st & -> & Hl & Hc & Hs).
    simpl in *. exists st. split; [reflexivity|].
    pose proof (count_valid_le_length (is_valid foundation)).
    unfold get_num_sites. repeat split; lia.
  - intros st0 site Hs Hv.
    pose proof (count_valid_lt_length _ site Hs Hv) as Hlt.
    destruct (clear_neighbors_steps (neighbours foundation) min_neighbors
                (length (states st0)) site st0 Hlt) as (st1 & -> & H1).
    exists st1. split; [reflexivity|]. destruct H1 as (_ & _ & H1). lia.
Qed.

End Foundation.

(* ------------------------------------------------------------------ *)
(** ** KPM: OptimizedHamiltonian, the Greens engine and [deferred_ldos]
    (cppmodule/src/kpm.cpp; the KPM core it binds is not in this tree) *)

Module KPM.

Import Foundation.

(** The nonzero structure of a square sparse matrix in CSR form: for every row,
    the columns of its nonzeros. *)
Definition SparseStructure := list (list nat).

(** Modelled from the spec: [OptimizedHamiltonian::optimize_for] and its
    per-step reachable-size sequence ([sizes()], returned by [ReturnSizes]).
    The sites reachable from the seed indices within [k] hops of the sparsity
    graph, as a flag per matrix index; one step adds one sparsity shell. *)
Definition seed_flags (n : nat) (seeds : list nat) : list bool :=
  map (fun i => existsb (Nat.eqb i) seeds) (seq 0 n).

(** Is index [i] a column of a row already reached? *)
Definition reached_from (m : SparseStructure) (reached : list bool) (i : nat) : bool :=
  existsb (fun j => nth j reached false && existsb (Nat.eqb i) (nth j m []))
          (seq 0 (length m)).

(** One shell: [i]-th flag onward. *)
Fixpoint grow_from (m : SparseStructure) (reached : list bool) (i : nat) (l : list bool)
  : list bool :=
  match l with
  | [] => []
  | x :: tl => (x || reached_from m reached i) :: grow_from m reached (S i) tl
  end.

Definition grow_shell (m : SparseStructure) (reached : list bool) : list bool :=
  grow_from m reached 0 reached.

Fixpoint reach_sizes (m : SparseStructure) (reached : list bool) (steps : nat) : list nat :=
  match steps with
  | O => []
  | S steps' => count_valid reached :: reach_sizes m (grow_shell m reached) steps'
  end.

(** [sizes] of [optimize_for({i, indices}, ...)] over [steps] iterations. *)
Definition optimized_sizes (m : SparseStructure) (seeds : list nat) (steps : nat) : list nat :=
  reach_sizes m (seed_flags (length m) seeds) steps.

(** The arguments of [calc_ldos] / [deferred_ldos]: [ArrayXd energy],
    [double broadening], [Cartesian position], [std::string sublattice]
    (the numbers are carried, not computed with, so they are kept as given). *)
Record LdosRequest := mkLdosRequest {
  energy : list Z;
  broadening : Z;
  position : Z * Z * Z;
  sublattice : string
}.

Section Engine.
(** The model's Hamiltonian, the spectral bounds, an optimised Hamiltonian
    and an LDOS result. *)
Context {Model Bounds OptHam Ldos : Type}.
(** [Bounds<scalar_t>(matrix, lanczos_precision)] *)
Variable estimate_bounds : Model -> Bounds.
(** [OptimizedHamiltonian(matrix, ...).optimize_for(indices, scaling_factors)] *)
Variable build_optimized : Model -> Bounds -> list nat -> OptHam.
(** the matrix index of a (position, sublattice) pair, from the model's system *)
Variable find_index : Model -> Z * Z * Z -> string -> nat.
(** moments, kernel damping and reconstruction at the requested energies *)
Variable reconstruct : OptHam -> Bounds -> LdosRequest -> Ldos.

(** Modelled from the spec: the state of a [KPM] (Greens) object: the bound
    model, the bounds computed lazily on first use, the optimised
    Hamiltonians cached per seed-index set, and a count of optimised
    Hamiltonians built (the work the Stats would show). *)
Record KPMState := mkKPMState {
  model : Model;
  bounds : option Bounds;
  oh_cache : list (list nat * OptHam);
  num_builds : nat
}.

Fixpoint cache_lookup (seeds : list nat) (cache : list (list nat * OptHam)) : option OptHam :=
  match cache with
  | [] => None
  | (s, oh) :: rest => if list_eq_dec Nat.eq_dec s seeds then Some oh else cache_lookup seeds rest
  end.

(** Modelled from the spec: bounds, computed on first use and then reused. *)
Definition get_bounds (k : KPMState) : Bounds * KPMState :=
  match bounds k with
  | Some b => (b, k)
  | None =>
      let b := estimate_bounds (model k) in
      (b, mkKPMState (model k) (Some b) (oh_cache k) (num_builds k))
  end.

(** Modelled from the spec: the optimised Hamiltonian for a seed-index set,
    served from the cache on a hit, built and cached on a miss. *)
Definition optimized_for (k : KPMState) (seeds : list nat) : OptHam * Bounds * KPMState :=
  let '(b, k1) := get_bounds k in
  match cache_lookup seeds (oh_cache k1) with
  | Some oh => (oh, b, k1)
  | None =>
      let oh := build_optimized (model k1) b seeds in
      (oh, b, mkKPMState (model k1) (bounds k1) ((seeds, oh) :: oh_cache k1)
                         (S (num_builds k1)))
  end.

(** Modelled from the spec: [KPM::calc_ldos(energy, broadening, position, sublattice)]. *)
Definition calc_ldos (k : KPMState) (req : LdosRequest) : Ldos * KPMState :=
  let i := find_index (model k) (position req) (sublattice req) in
  let '(oh, b, k1) := optimized_for k [i] in
  (reconstruct oh b req, k1).

(** Modelled from the spec: [KPM::set_model] (the setter of the [model]
    property): binds the new model and drops the bounds and every cached
    optimised Hamiltonian. *)
Definition set_model (k : KPMState) (m : Model) : KPMState :=
  mkKPMState m None [] (num_builds k).

(** What a fresh engine on model [m] computes for [req]. *)
Definition ldos_fresh (m : Model) (req : LdosRequest) : Ldos :=
  let b := estimate_bounds m in
  reconstruct (build_optimized m b [find_index m (position req) (sublattice req)]) b req.

(** Python objects: a store of [KPM] objects addressed by reference. *)
Definition Store := list KPMState.

(** [Deferred<ArrayXd>{self, [=, &kpm] { return kpm.calc_ldos(energy, broadening,
    position, sublattice); }}]: [self] (the Python object, by shared ownership)
    and the four arguments (by value) are captured; [kpm] is a reference to
    the object behind [self]. *)
Record Deferred := mkDeferred {
  d_self : nat;
  d_request : LdosRequest
}.

(** The [deferred_ldos] binding. *)
Definition deferred_ldos (self : nat) (energy : list Z) (broadening : Z)
    (position : Z * Z * Z) (sublattice : string) : Deferred :=
  mkDeferred self (mkLdosRequest energy broadening position sublattice).

(** Running the deferred work: call [calc_ldos] on the object [kpm] refers
    to, as it is now in the store. *)
Definition run_deferred (d : Deferred) (store : Store) : option (Ldos * Store) :=
  match nth_error store (d_self d) with
  | Some k => let '(r, k') := calc_ldos k (d_request d) in Some (r, set_at store (d_self d) k')
  | None => None
  end.

(** [kpm.model = m] on the object at [self]. *)
Definition set_model_at (store : Store) (self : nat) (m : Model) : Store :=
  match nth_error store self with
  | Some k => set_at store self (set_model k m)
  | None => store
  end.

(** The engine's caches hold only what its bound model gives. *)
Definition Coherent (k : KPMState) : Prop :=
  (forall b, bounds k = Some b -> b = estimate_bounds (model k)) /\
  (forall s oh, In (s, oh) (oh_cache k) ->
     oh = build_optimized (model k) (estimate_bounds (model k)) s).

(** *** Properties of the engine *)

Lemma cache_lookup_in (seeds : list nat) (cache : list (list nat * OptHam)) (oh : OptHam) :
  cache_lookup seeds cache = Some oh -> In (seeds, oh) cache.
Proof.
  induction cache as [|[s o] rest IH]; simpl; [discriminate|].
  destruct (list_eq_dec Nat.eq_dec s seeds) as [<-|_].
  - intros [= <-]. left. reflexivity.
  - intros H. right. apply IH. exact H.
Qed.

Lemma get_bounds_coherent (k : KPMState) :
  Coherent k ->
  fst (get_bounds k) = estimate_bounds (model k) /\
  Coherent (snd (get_bounds k)) /\
  model (snd (get_bounds k)) = model k /\
  oh_cache (snd (get_bounds k)) = oh_cache k /\
  num_builds (snd (get_bounds k)) = num_builds k.
Proof.
  intros Hk. unfold get_bounds.
  destruct (bounds k) as [b|] eqn:E; simpl.
  - split; [destruct Hk as [Hb _]; apply Hb; exact E|].
    split; [exact Hk|]. auto.
  - split; [reflexivity|]. split; [|auto].
    split; simpl.
    + intros b [= <-]. reflexivity.
    + destruct Hk as [_ Hc]. exact Hc.
Qed.

Lemma optimized_for_coherent (k : KPMState) (seeds : list nat) :
  Coherent k ->
  let '(oh, b, k1) := optimized_for k seeds in
  oh = build_optimized (model k) (estimate_bounds (model k)) seeds /\
  b = estimate_bounds (model k) /\
  Coherent k1 /\ model k1 = model k.
Proof.
  intros Hk. destruct (get_bounds_coherent k Hk) as (Hb & Hk1 & Hm & Hc & _).
  unfold optimized_for.
  destruct (get_bounds k) as [b k1]; simpl in *.
  destruct (cache_lookup seeds (oh_cache k1)) as [oh|] eqn:E.
  - apply cache_lookup_in in E. destruct Hk1 as [Hb1 Hc1].
    rewrite <- Hm. repeat split; auto. congruence.
  - destruct Hk1 as [Hb1 Hc1].
    split; [rewrite Hm, Hb; reflexivity|]. split; [exact Hb|].
    split; [split; cbn [model bounds oh_cache]|cbn [model]; exact Hm].
    + intros b' Hb'. rewrite (Hb1 b' Hb'), Hm. reflexivity.
    + intros s oh [[= <- <-] | Hin].
      * rewrite Hm, Hb. reflexivity.
      * rewrite (Hc1 s oh Hin), Hm. reflexivity.
Qed.

Lemma calc_ldos_coherent (k : KPMState) (req : LdosRequest) :
  Coherent k ->
  fst (calc_ldos k req) = ldos_fresh (model k) req /\
  Coherent (snd (calc_ldos k req)) /\ model (snd (calc_ldos k req)) = model k.
Proof.
  intros Hk. unfold calc_ldos, ldos_fresh.
  pose proof (optimized_for_coherent k [find_index (model k) (position req) (sublattice req)] Hk)
    as Ho.
  destruct (optimized_for k _) as [[oh b] k1]. destruct Ho as (-> & -> & Hk1 & Hm).
  simpl. auto.
Qed.

Lemma set_model_coherent (k : KPMState) (m : Model) : Coherent (set_model k m).
Proof. split; simpl; [discriminate|contradiction]. Qed.

Lemma nth_error_set_at_eq {A : Type} (l : list A) (i : nat) (x y : A) :
  nth_error l i = Some y -> nth_error (set_at l i x) i = Some x.
Proof.
  revert i; induction l as [|z tl IH]; intros [|i] H; simpl in *; try discriminate; auto.
Qed.

(** *** Claims on the engine *)

(** C6: replacing the model drops the cached bounds and every cached
    optimised Hamiltonian; the next request builds a new optimised
    Hamiltonian (one more build) from the new model and its new bounds, and
    from then on every request is answered as a fresh engine on the new
    model would answer it, never from a state of the old model. *)
Theorem set_model_invalidates_caches (k : KPMState) (m : Model) (seeds : list nat) :
  let k' := set_model k m in
  bounds k' = None /\ oh_cache k' = [] /\
  (let '(oh, b, k'') := optimized_for k' seeds in
     oh = build_optimized m (estimate_bounds m) seeds /\ b = estimate_bounds m /\
     num_builds k'' = S (num_builds k)) /\
  (forall req, fst (calc_ldos k' req) = ldos_fresh m req) /\
  Coherent k' /\
  (forall k1 req, Coherent k1 -> model k1 = m ->
     fst (calc_ldos k1 req) = ldos_fresh m req /\
     Coherent (snd (calc_ldos k1 req)) /\ model (snd (calc_ldos k1 req)) = m).
Proof.
  intros k'. split; [reflexivity|]. split; [reflexivity|]. split; [|split; [|split]].
  - unfold optimized_for, get_bounds. simpl. auto.
  - intros req. apply (calc_ldos_coherent k' req (set_model_coherent k m)).
  - apply set_model_coherent.
  - intros k1 req Hk1 <-. apply calc_ldos_coherent. exact Hk1.
Qed.

(** C2 (as the code does it): the deferred work keeps the four arguments by
    value but reaches the engine through a reference, so it computes on the
    engine as it is when run.  Run with no change in between it returns what
    an immediate [calc_ldos] at creation returns; run after the model of the
    same object was replaced it returns the LDOS of the new model. *)
Theorem deferred_ldos_reads_engine_when_run (store : Store) (self : nat) (k : KPMState)
    (m : Model) (energy : list Z) (broadening : Z) (position : Z * Z * Z)
    (sublattice : string)
    (Hself : nth_error store self = Some k) (Hk : Coherent k) :
  let d := deferred_ldos self energy broadening position sublattice in
  let req := mkLdosRequest energy broadening position sublattice in
  d_request d = req /\
  (exists store', run_deferred d store = Some (fst (calc_ldos k req), store')) /\
  fst (calc_ldos k req) = ldos_fresh (model k) req /\
  (exists store', run_deferred d (set_model_at store self m) = Some (ldos_fresh m req, store')).
Proof.
  intros d req. split; [reflexivity|]. split; [|split].
  - unfold run_deferred, d, req. simpl. rewrite Hself.
    destruct (calc_ldos k _) as [r k']. eexists. reflexivity.
  - apply calc_ldos_coherent. exact Hk.
  - unfold run_deferred, set_model_at. rewrite Hself. simpl.
    rewrite (nth_error_set_at_eq store self (set_model k m) k Hself).
    destruct (calc_ldos_coherent (set_model k m) req (set_model_coherent k m)) as [Hr _].
    unfold req in Hr |- *.
    destruct (calc_ldos (set_model k m) _) as [r k'] eqn:E. simpl in Hr.
    subst r. eexists. reflexivity.
Qed.

End Engine.

(** *** Properties of the reachable-size sequence *)

Lemma grow_from_length (m : SparseStructure) (r : list bool) (i : nat) (l : list bool) :
  length (grow_from m r i l) = length l.
Proof. revert i; induction l as [|x tl IH]; intros i; simpl; auto. Qed.

Lemma grow_from_count (m : SparseStructure) (r : list bool) (i : nat) (l : list bool) :
  (count_valid l <= count_valid (grow_from m r i l))%nat.
Proof.
  revert i; induction l as [|x tl IH]; intros i; simpl; [lia|].
  specialize (IH (S i)).
  destruct x; simpl; [lia|]. destruct (reached_from m r i); simpl; lia.
Qed.

Lemma seed_flags_length (n : nat) (seeds : list nat) : length (seed_flags n seeds) = n.
Proof. unfold seed_flags. rewrite length_map, length_seq. reflexivity. Qed.

Lemma reach_sizes_props (m : SparseStructure) (n : nat) :
  forall steps r, length r = n ->
  let s := reach_sizes m r steps in
  (forall k, (S k < length s)%nat -> (nth k s 0 <= nth (S k) s 0)%nat) /\
  (forall x, In x s -> (x <= n)%nat).
Proof.
  induction steps as [|steps IH]; intros r Hr s; subst s; simpl.
  - split; [intros; lia|tauto].
  - assert (Hg : length (grow_shell m r) = n)
      by (unfold grow_shell; rewrite grow_from_length; exact Hr).
    destruct (IH (grow_shell m r) Hg) as [Hmono Hbound].
    split.
    + intros [|k] Hk.
      * destruct steps as [|steps']; simpl in Hk; [lia|].
        simpl. unfold grow_shell. apply grow_from_count.
      * apply Hmono. simpl in Hk. lia.
    + intros x [<- | Hx].
      * rewrite <- Hr. apply count_valid_le_length.
      * apply Hbound. exact Hx.
Qed.

(** *** Claim on [OptimizedHamiltonian::sizes] *)

(** C7: the per-step reachable-size sequence of an optimised Hamiltonian is
    non-decreasing and each of its entries is at most the matrix dimension. *)
Theorem optimized_sizes_monotone_bounded (m : SparseStructure) (seeds : list nat)
    (steps : nat) :
  let sizes := optimized_sizes m seeds steps in
  (forall k, (S k < length sizes)%nat -> (nth k sizes 0 <= nth (S k) sizes 0)%nat) /\
  (forall x, In x sizes -> (x <= length m)%nat).
Proof.
  apply reach_sizes_props. apply seed_flags_length.
Qed.

(** *** A concrete engine

    A one-site model given by its on-site energy [e]: its spectrum is
    [{e}], its bounds are taken as [(e - 1, e + 1)], its optimised
    Hamiltonian is the single entry [e], and its LDOS is 1 at the energy [e]
    and 0 elsewhere. *)
Definition site_bounds (e : Z) : Z * Z := (e - 1, e + 1).
Definition site_optimized (e : Z) (b : Z * Z) (seeds : list nat) : Z := e.
Definition site_index (e : Z) (position : Z * Z * Z) (sublattice : string) : nat := 0.
Definition site_reconstruct (oh : Z) (b : Z * Z) (req : LdosRequest) : list Z :=
  map (fun E => if Z.eqb E oh then 1 else 0) (energy req).

Definition site_engine (e : Z) : @KPMState Z (Z * Z) Z := mkKPMState e None [] 0.

Definition site_calc_ldos := calc_ldos site_bounds site_optimized site_index site_reconstruct.
Definition site_run_deferred := run_deferred site_bounds site_optimized site_index site_reconstruct.

Example site_calc_ldos_peak :
  fst (site_calc_ldos (site_engine 0) (mkLdosRequest [-1; 0; 1] 1 (0, 0, 0) "A")) = [0; 1; 0].
Proof. reflexivity. Qed.

(** C2 counterexample: a deferred LDOS request on the engine of model 0, run
    after the object's model was replaced by model 1, returns the LDOS of
    model 1 ([0; 1] at energies [0; 1]), not what an immediate call at
    creation returned ([1; 0]). *)
Lemma deferred_ldos_sees_replaced_model :
  let store := [site_engine 0] in
  let d := deferred_ldos 0 [0; 1] 1 (0, 0, 0) "A" in
  option_map fst (site_run_deferred d (set_model_at store 0 1)) = Some [0; 1] /\
  fst (site_calc_ldos (site_engine 0) (d_request d)) = [1; 0] /\
  option_map fst (site_run_deferred d (set_model_at store 0 1)) <>
    Some (fst (site_calc_ldos (site_engine 0) (d_request d))).
Proof.
  split; [reflexivity|]. split; [reflexivity|]. vm_compute. congruence.
Qed.

(** Witness of [deferred_ldos_reads_engine_when_run] on the one-site engine. *)
Lemma deferred_ldos_reads_engine_when_run_witness :
  nth_error [site_engine 0] 0 = Some (site_engine 0) /\
  Coherent site_bounds site_optimized (site_engine 0) /\
  (exists store',
     site_run_deferred (deferred_ldos 0 [0; 1] 1 (0, 0, 0) "A")
       (set_model_at [site_engine 0] 0 1) =
     Some (ldos_fresh site_bounds site_optimized site_index site_reconstruct 1
             (mkLdosRequest [0; 1] 1 (0, 0, 0) "A"), store')).
Proof.
  assert (Hk : Coherent site_bounds site_optimized (site_engine 0)).
  { split; simpl; [intros b' H; discriminate | intros s oh []]. }
  split; [reflexivity|]. split; [exact Hk|].
  apply (deferred_ldos_reads_engine_when_run site_bounds site_optimized site_index
           site_reconstruct [site_engine 0] 0 (site_engine 0) 1 [0; 1] 1 (0, 0, 0) "A"
           eq_refl Hk).
Defined.

End KPM.

(* ------------------------------------------------------------------ *)
(** ** Witnesses of the dispatch claims at concrete views *)

Module DispatchWitnesses.
Import Num.

(** A complex-float view accepted as a [ComplexArrayConstRef]. *)
Definition cf32_view : Variant :=
  mkVariant float [double; complex_float; complex_double] (mkArrayRef cf32 true 4096 2 3).

(** A float view accepted as a [RealArrayConstRef]. *)
Definition f32_view : Variant := mkVariant float [double] (mkArrayRef f32 false 8192 3 1).

Example cf32_view_constructed :
  ComplexArrayConstRef (mkArrayRef cf32 true 4096 2 3) = Ok cf32_view.
Proof. reflexivity. Qed.

Lemma match_invokes_first_matching_type_witness :
  In (tag (vref cf32_view)) (map get_tag (Types cf32_view)) /\
  exists pre s post,
    Types cf32_view = pre ++ s :: post /\
    Forall (fun t => get_tag t <> tag (vref cf32_view)) pre /\
    get_tag s = tag (vref cf32_view) /\
    match_ cf32_view (fun c => c_scalar c) [] =
      Returned (c_scalar (MakeContainer s (vref cf32_view))) ([] ++ [MakeContainer s (vref cf32_view)]).
Proof.
  assert (Hin : In (tag (vref cf32_view)) (map get_tag (Types cf32_view)))
    by (simpl; tauto).
  split; [exact Hin|].
  apply (match_invokes_first_matching_type cf32_view (fun c => c_scalar c) [] Hin).
Defined.

Lemma match2_and_match2sp_select_witness :
  let c1 := MakeContainer complex_float (vref cf32_view) in
  let c2 := MakeContainer float (vref f32_view) in
  FirstMatch2 (Combinations (Types cf32_view) (Types f32_view))
    (vref cf32_view) (vref f32_view) (complex_float, float) /\
  match2 cf32_view f32_view (fun a b => (c_scalar a, c_scalar b)) [] =
    Returned (c_scalar c1, c_scalar c2) ([] ++ [(c1, c2)]) /\
  (IsSamePrecision (complex_float, float) = true ->
     FirstMatch2 (Filter (Combinations (Types cf32_view) (Types f32_view)) IsSamePrecision)
       (vref cf32_view) (vref f32_view) (complex_float, float) /\
     match2sp cf32_view f32_view (fun a b => (c_scalar a, c_scalar b)) [] =
       Returned (c_scalar c1, c_scalar c2) ([] ++ [(c1, c2)])) /\
  (IsSamePrecision (complex_float, float) = false ->
     match2sp cf32_view f32_view (fun a b => (c_scalar a, c_scalar b)) [] =
       Threw "A match was not found" []).
Proof.
  apply (match2_and_match2sp_select cf32_view f32_view complex_float float
           (fun a b => (c_scalar a, c_scalar b)) []);
    simpl; tauto.
Defined.

End DispatchWitnesses.

(* ------------------------------------------------------------------ *)
(** ** More of numeric/arrayref.hpp *)

Module NumMore.
Import Num.

(** [arrayref(scalar_t const* data, int size)] and its mutable overload:
    a 1-D row-major view tagged with [get_tag<scalar_t>()]. *)
Definition arrayref (s : Scalar) (data : Z) (size : Z) : BasicArrayRef :=
  mkArrayRef (get_tag s) true data 1 size.

(** [arrayref(Tag tag, void const* data, int size)] *)
Definition arrayref_tag (t : Tag) (data : Z) (size : Z) : BasicArrayRef :=
  mkArrayRef t true data 1 size.

(** [RealArrayRef] and [ComplexArrayRef] (the mutable typedefs). *)
Definition RealArrayRef := VariantArrayRef float [double].
Definition ComplexArrayRef := VariantArrayRef float [double; complex_float; complex_double].

(** The value a dispatch returned, if it returned. *)
Definition returned {R C : Type} (o : Outcome R C) : option R :=
  match o with
  | Returned r _ => Some r
  | Threw _ _ => None
  end.

Lemma Exists_matches2_Combinations (ref1 ref2 : BasicArrayRef) (l1 l2 : list Scalar) :
  Exists (matches2 ref1 ref2) (Combinations l1 l2) ->
  In (tag ref1) (map get_tag l1) /\ In (tag ref2) (map get_tag l2).
Proof.
  intros H. apply Exists_exists in H as ([s1 s2] & Hin & [E1 E2]).
  apply In_Combinations in Hin as [H1 H2]. simpl in *.
  split; apply in_map_iff; eauto.
Qed.

(** X1: a typed 1-D reference [arrayref(data, size)] of scalar type [s] is
    accepted by every [VariantArrayConstRef] whose type list contains [s], and
    [match] on it calls the operation once, on the container of type [s] over
    a 1 x size row-major view of [data]. *)
Theorem arrayref_accepted_and_matched {R : Type} (s0 : Scalar) (ss : list Scalar)
    (s : Scalar) (data size : Z) (lambda : Container -> R) (log : list Container)
    (Hs : In s (s0 :: ss)) :
  match VariantArrayConstRef s0 ss (arrayref s data size) with
  | Ok v =>
      vref v = mkArrayRef (get_tag s) true data 1 size /\
      match_ v lambda log =
        Returned (lambda (MakeContainer s (arrayref s data size)))
                 (log ++ [MakeContainer s (arrayref s data size)])
  | Throw _ => False
  end.
Proof.
  assert (Hin : In (get_tag s) (map get_tag (s0 :: ss))) by (apply in_map; exact Hs).
  unfold VariantArrayConstRef.
  destruct (none_of_tag (tag (arrayref s data size)) (get_tag s0 :: map get_tag ss)) eqn:E.
  - apply none_of_tag_spec in E. contradiction.
  - split; [reflexivity|].
    destruct (try_match_found (arrayref s data size) lambda (s0 :: ss) log Hin)
      as (pre & s' & post & _ & _ & Hs' & Hrun).
    apply get_tag_inj in Hs'. subst s'. exact Hrun.
Qed.

(** X2: the real typedefs accept exactly the f32 and f64 views and the
    complex typedefs exactly the f32, f64, cf32 and cf64 views, for read-only
    and mutable references alike; every other tag throws. *)
Theorem common_typedefs_accepted_tags (a : BasicArrayRef) :
  ((exists v, RealArrayConstRef a = Ok v) <-> In (tag a) [f32; f64]) /\
  ((exists v, RealArrayRef a = Ok v) <-> In (tag a) [f32; f64]) /\
  ((exists v, ComplexArrayConstRef a = Ok v) <-> In (tag a) [f32; f64; cf32; cf64]) /\
  ((exists v, ComplexArrayRef a = Ok v) <-> In (tag a) [f32; f64; cf32; cf64]).
Proof.
  unfold RealArrayConstRef, RealArrayRef, ComplexArrayConstRef, ComplexArrayRef,
    VariantArrayConstRef, VariantArrayRef.
  destruct a as [t rm d r c]; simpl.
  destruct t; simpl; repeat split;
    first [ intros [v Hv]; discriminate
          | intros H; eexists; reflexivity
          | intros _; simpl; tauto
          | intros H; exfalso; repeat (destruct H as [H|H]; [discriminate|]); exact H ].
Qed.

(** X3: [match2] on two references returns exactly when each reference
    alone would be matched by [match], and then returns the operation applied
    to the two containers those single matches select. *)
Theorem match2_is_product_of_matches {R : Type} (v1 v2 : Variant)
    (lambda : Container -> Container -> R) (log : list (Container * Container)) :
  returned (match2 v1 v2 lambda log) =
    match returned (match_ v1 (fun c => c) []), returned (match_ v2 (fun c => c) []) with
    | Some c1, Some c2 => Some (lambda c1 c2)
    | _, _ => None
    end.
Proof.
  unfold match2, match_.
  destruct (in_dec Tag_eq_dec (tag (vref v1)) (map get_tag (Types v1))) as [H1|H1];
  [destruct (in_dec Tag_eq_dec (tag (vref v2)) (map get_tag (Types v2))) as [H2|H2]|].
  - destruct (try_match_found (vref v1) (fun c => c) (Types v1) [] H1)
      as (pre1 & s1 & post1 & Ht1 & _ & E1 & ->).
    destruct (try_match_found (vref v2) (fun c => c) (Types v2) [] H2)
      as (pre2 & s2 & post2 & Ht2 & _ & E2 & ->).
    assert (Hf : FirstMatch2 (Combinations (Types v1) (Types v2)) (vref v1) (vref v2) (s1, s2)).
    { apply first_match2_of_in; [|split; assumption].
      apply In_Combinations. rewrite Ht1, Ht2. split; apply in_or_app; right; left; reflexivity. }
    rewrite (try_match2_first _ _ lambda _ log _ Hf). reflexivity.
  - rewrite (try_match_not_found (vref v2) (fun c => c) (Types v2) [] H2).
    rewrite try_match2_not_found.
    + destruct (returned (try_match (vref v1) (fun c : Container => c) (Types v1) [])); reflexivity.
    + apply Forall_forall. intros q Hq Hm.
      apply H2. apply (Exists_matches2_Combinations (vref v1) (vref v2) (Types v1) (Types v2)).
      apply Exists_exists. eauto.
  - rewrite (try_match_not_found (vref v1) (fun c => c) (Types v1) [] H1).
    rewrite try_match2_not_found; [reflexivity|].
    apply Forall_forall. intros q Hq Hm.
    apply H1. apply (Exists_matches2_Combinations (vref v1) (vref v2) (Types v1) (Types v2)).
    apply Exists_exists. eauto.
Qed.

End NumMore.

(* ------------------------------------------------------------------ *)
(** ** More of system/Foundation.cpp *)

Module FoundationMore.
Import Foundation.

(** [Array3i] / [Index3D]: three [int] components. *)
Record Array3i := mkArray3i { i0 : Z; i1 : Z; i2 : Z }.

Definition get (v : Array3i) (d : nat) : Z :=
  match d with O => i0 v | 1%nat => i1 v | _ => i2 v end.







(** [size((bounds.second - bounds.first) + Index3D::Ones())] of
    [Foundation(Lattice, Shape)]. *)
Definition shape_size (bounds : Array3i * Array3i) : Array3i :=
  mkArray3i (i0 (snd bounds) - i0 (fst bounds) + 1)
            (i1 (snd bounds) - i1 (fst bounds) + 1)
            (i2 (snd bounds) - i2 (fst bounds) + 1).

(** [bounds(-primitive.size.array() / 2, (primitive.size.array() - 1) / 2)]
    of [Foundation(Lattice, Primitive)]: C++ [int] division truncates. *)
Definition primitive_bounds (size : Array3i) : Array3i * Array3i :=
  (mkArray3i (Z.quot (- i0 size) 2) (Z.quot (- i1 size) 2) (Z.quot (- i2 size) 2),
   mkArray3i (Z.quot (i0 size - 1) 2) (Z.quot (i1 size - 1) 2) (Z.quot (i2 size - 1) 2)).

(** [detail::count_neighbors] for one site: start from the number of
    hoppings of its sublattice ([int16_t]) and take one off for each hopping
    whose target [site.get_index() + hopping.relative_index] has a component
    below 0 or at least [size]. *)
Definition out_of_bounds (index size : Array3i) : bool :=
  (i0 index <? 0) || (i1 index <? 0) || (i2 index <? 0) ||
  (i0 index >=? i0 size) || (i1 index >=? i1 size) || (i2 index >=? i2 size).

Definition add3 (a b : Array3i) : Array3i :=
  mkArray3i (i0 a + i0 b) (i1 a + i1 b) (i2 a + i2 b).

Definition count_site_neighbors (index size : Array3i) (relative_indices : list Array3i) : Z :=
  fold_left (fun num_neighbors rel =>
               if out_of_bounds (add3 index rel) size
               then wrap_int16 (num_neighbors - 1) else num_neighbors)
            relative_indices (wrap_int16 (Z.of_nat (length relative_indices))).

Section Positions.
(** [Cartesian] and the two float operations [generate_positions] uses:
    vector addition and [static_cast<float>(k) * vector]. *)
Context {Cartesian : Type}.
Variable cadd : Cartesian -> Cartesian -> Cartesian.
Variable cscale : Z -> Cartesian -> Cartesian.










End Positions.

(** *** Properties of [find_bounds] *)








(** *** The bounds of [Foundation(Lattice, Primitive)] *)

(** X6: for a primitive of [n >= 1] cells in a dimension, the bounds are
    [-(n / 2)] and [(n - 1) / 2]: they contain 0, and the size the
    [Shape] constructor would derive from them, [second - first + 1], gives
    back [n]. *)
Theorem primitive_bounds_centered (size : Array3i) (d : nat)
    (Hd : (d < 3)%nat) (Hn : 1 <= get size d) :
  let bounds := primitive_bounds size in
  get (fst bounds) d <= 0 <= get (snd bounds) d /\
  get (shape_size bounds) d = get size d /\
  get (fst bounds) d = - (get size d / 2).
Proof.
  assert (Hq : forall n, 1 <= n ->
            Z.quot (- n) 2 <= 0 <= Z.quot (n - 1) 2 /\
            Z.quot (n - 1) 2 - Z.quot (- n) 2 + 1 = n /\ Z.quot (- n) 2 = - (n / 2)).
  { intros n Hn'. rewrite Z.quot_opp_l by lia.
    rewrite !Z.quot_div_nonneg by lia.
    pose proof (Z.div_mod n 2 ltac:(lia)). pose proof (Z.mod_pos_bound n 2 ltac:(lia)).
    pose proof (Z.div_mod (n - 1) 2 ltac:(lia)). pose proof (Z.mod_pos_bound (n - 1) 2 ltac:(lia)).
    lia. }
  destruct size as [s0 s1 s2]. unfold primitive_bounds, shape_size.
  destruct d as [|[|[|d]]]; simpl in *; try lia; apply Hq; exact Hn.
Qed.

(** *** [count_neighbors] for one site, from the hoppings *)

Lemma wrap_int16_small (x : Z) : -32768 <= x < 32768 -> wrap_int16 x = x.
Proof. intros Hx. unfold wrap_int16. rewrite Z.mod_small by lia. lia. Qed.

Lemma count_site_neighbors_fold (index size : Array3i) (rel : list Array3i) (acc : Z) :
  Z.of_nat (length (filter (fun r => out_of_bounds (add3 index r) size) rel)) <= acc < 32768 ->
  fold_left (fun num_neighbors rel =>
               if out_of_bounds (add3 index rel) size
               then wrap_int16 (num_neighbors - 1) else num_neighbors) rel acc
  = acc - Z.of_nat (length (filter (fun r => out_of_bounds (add3 index r) size) rel)).
Proof.
  revert acc; induction rel as [|r rel IH]; intros acc Hacc; simpl in *; [lia|].
  destruct (out_of_bounds (add3 index r) size); simpl in *.
  - rewrite wrap_int16_small by lia. rewrite IH by lia. lia.
  - rewrite IH by lia. lia.
Qed.

Lemma length_filter_negb {A : Type} (f : A -> bool) (l : list A) :
  (length (filter f l) + length (filter (fun x => negb (f x)) l) = length l)%nat.
Proof. induction l as [|x l IH]; simpl; [reflexivity|]. destruct (f x); simpl; lia. Qed.

(** X7: when a sublattice has fewer than 32768 hoppings (so the [int16_t]
    count cannot wrap), the neighbour count of a site is the number of its
    hoppings whose target index lies inside the foundation, between 0 and
    the number of hoppings. *)
Theorem count_site_neighbors_in_bounds (index size : Array3i) (rel : list Array3i)
    (Hlen : Z.of_nat (length rel) < 32768) :
  count_site_neighbors index size rel =
    Z.of_nat (length (filter (fun r => negb (out_of_bounds (add3 index r) size)) rel)) /\
  0 <= count_site_neighbors index size rel <= Z.of_nat (length rel).
Proof.
  unfold count_site_neighbors.
  pose proof (length_filter_negb (fun r => out_of_bounds (add3 index r) size) rel) as Hp.
  cbv beta in Hp.
  rewrite wrap_int16_small by lia.
  rewrite count_site_neighbors_fold by lia.
  split; lia.
Qed.

(** *** What [remove_dangling] does to the states and the counts *)

Lemma set_at_out {A : Type} (l : list A) (i : nat) (x : A) :
  (length l <= i)%nat -> set_at l i x = l.
Proof.
  revert i; induction l as [|y l IH]; intros [|i] Hi; simpl in *; try lia; auto.
  f_equal. apply IH. lia.
Qed.

Lemma nth_set_at_same {A : Type} (l : list A) (i : nat) (x d : A) :
  nth i (set_at l i x) d = x \/ nth i (set_at l i x) d = d.
Proof.
  destruct (Nat.lt_ge_cases i (length l)) as [Hi|Hi].
  - left. apply nth_set_at_eq. exact Hi.
  - right. rewrite set_at_out by exact Hi. apply nth_overflow. exact Hi.
Qed.

Lemma nth_set_at_false (l : list bool) (i j : nat) :
  nth j l false = false -> nth j (set_at l i false) false = false.
Proof.
  intros Hj. destruct (Nat.eq_dec i j) as [<-|Hij].
  - destruct (nth_set_at_same l i false false) as [H|H]; exact H.
  - rewrite nth_set_at_neq by exact Hij. exact Hj.
Qed.

Section Dangling.
Variable nbs : list (list nat).
Variable min_neighbors : Z.

Local Abbreviation valid st j := (nth j (states st) false).
Local Abbreviation cnt st j := (nth j (neighbor_count st) 0).

(** From [st] to [st']: no invalid site turns valid, the count of an
    invalid site is left alone, and a site turned invalid has count 0 and
    is a neighbour of a site that is invalid in [st']. *)
Definition Cleared (st st' : DanglingState) : Prop :=
  (forall j, valid st j = false -> valid st' j = false) /\
  (forall j, valid st j = false -> cnt st' j = cnt st j) /\
  (forall j, valid st j = true -> valid st' j = false ->
     cnt st' j = 0 /\ exists k, In j (nth k nbs []) /\ valid st' k = false).

Lemma Cleared_refl (st : DanglingState) : Cleared st st.
Proof.
  split; [auto|]. split; [auto|]. intros j H1 H2. congruence.
Qed.

Lemma Cleared_trans (st1 st2 st3 : DanglingState) :
  Cleared st1 st2 -> Cleared st2 st3 -> Cleared st1 st3.
Proof.
  intros (A1 & B1 & C1) (A2 & B2 & C2). split; [auto|]. split.
  - intros j Hj. rewrite (B2 j (A1 j Hj)). apply B1, Hj.
  - intros j Hj1 Hj3. destruct (valid st2 j) eqn:Hj2.
    + apply C2; assumption.
    + destruct (C1 j Hj1 Hj2) as (Hc & k & Hk & Hkv). split.
      * rewrite (B2 j Hj2). exact Hc.
      * exists k. split; [exact Hk|]. apply A2, Hkv.
Qed.

Lemma Cleared_set_count (st : DanglingState) (i : nat) (c : Z) :
  valid st i = true -> Cleared st (set_count i c st).
Proof.
  intros Hi. unfold set_count. split; [simpl; auto|]. split.
  - intros j Hj. simpl. rewrite nth_set_at_neq; [reflexivity|congruence].
  - simpl. intros j H1 H2. congruence.
Qed.

Lemma for_each_neighbour_cleared (lambda : nat -> DanglingState -> option DanglingState)
    (site : nat) (ns : list nat) :
  (forall nb st st', In nb ns -> valid st site = false -> lambda nb st = Some st' ->
     Cleared st st') ->
  forall st st', valid st site = false -> for_each_neighbour lambda ns st = Some st' ->
  Cleared st st'.
Proof.
  intros Hl. induction ns as [|nb rest IH]; intros st st' Hs Hf; simpl in Hf.
  - injection Hf as <-. apply Cleared_refl.
  - destruct (lambda nb st) as [st1|] eqn:E1; [|discriminate].
    assert (H1 : Cleared st st1) by (apply (Hl nb st st1); [left; reflexivity|exact Hs|exact E1]).
    eapply Cleared_trans; [exact H1|].
    apply IH; [intros; apply (Hl nb0 st0); auto; right; assumption| |exact Hf].
    destruct H1 as (A & _ & _). apply A, Hs.
Qed.

(** A call of [clear_neighbors] on an invalid [site] clears its count and
    keeps [Cleared] for every other site. *)
Definition ClearedAt (site : nat) (st st' : DanglingState) : Prop :=
  (forall j, valid st j = false -> valid st' j = false) /\
  (forall j, j <> site -> valid st j = false -> cnt st' j = cnt st j) /\
  (forall j, valid st j = true -> valid st' j = false ->
     cnt st' j = 0 /\ exists k, In j (nth k nbs []) /\ valid st' k = false) /\
  cnt st' site = 0.

Lemma clear_neighbors_cleared :
  forall depth site st st', valid st site = false ->
  clear_neighbors nbs min_neighbors depth site st = Some st' ->
  ClearedAt site st st'.
Proof.
  induction depth as [|depth IH]; intros site st st' Hs Hc; [discriminate|].
  simpl in Hc. destruct (Z.eqb (cnt st site) 0) eqn:E0.
  - injection Hc as <-. split; [auto|]. split; [auto|]. split.
    + intros j H1 H2. congruence.
    + apply Z.eqb_eq, E0.
  - match type of Hc with context [for_each_neighbour ?lam ?ns st] =>
      destruct (for_each_neighbour lam ns st) as [st1|] eqn:F; [|discriminate];
      assert (Hf : Cleared st st1);
      [apply (for_each_neighbour_cleared lam site ns); [|exact Hs|exact F]|]
    end.
    + intros nb st0 st2 Hin Hs0 Hl. cbv beta in Hl.
      destruct (valid st0 nb) eqn:Ev; simpl in Hl.
      2: { injection Hl as <-. apply Cleared_refl. }
      destruct (_ <? min_neighbors).
      * apply IH in Hl as (A & B & C & Hnb);
          [|simpl; destruct (nth_set_at_same (states st0) nb false false) as [H|H]; exact H].
        simpl in A, B, C.
        split; [intros j Hj; apply A; apply nth_set_at_false; exact Hj|]. split.
        -- intros j Hj. assert (Hjn : nb <> j) by congruence.
           rewrite B by (try congruence; rewrite nth_set_at_neq by exact Hjn; exact Hj).
           rewrite nth_set_at_neq by exact Hjn. reflexivity.
        -- intros j Hj1 Hj2. destruct (Nat.eq_dec nb j) as [<-|Hjn].
           ++ split; [exact Hnb|]. exists site. split; [exact Hin|].
              apply A. apply nth_set_at_false. exact Hs0.
           ++ apply C; [|exact Hj2]. rewrite nth_set_at_neq by exact Hjn. exact Hj1.
      * injection Hl as <-. apply Cleared_set_count. exact Ev.
    + injection Hc as <-. destruct Hf as (A & B & C). unfold ClearedAt, set_count; simpl.
      split; [exact A|]. split; [|split].
      * intros j Hjs Hj. rewrite nth_set_at_neq by congruence. apply B, Hj.
      * intros j Hj1 Hj2. destruct (Nat.eq_dec site j) as [<-|Hjn]; [congruence|].
        rewrite nth_set_at_neq by exact Hjn. apply C; assumption.
      * destruct (nth_set_at_same (neighbor_count st1) site 0 0) as [H|H]; exact H.
Qed.

Lemma remove_loop_cleared (depth n : nat) (v0 : list bool) :
  forall k i st st', (i + k = n)%nat ->
  (forall j, nth j v0 false = false -> valid st j = false) ->
  (forall j, nth j v0 false = true -> valid st j = false ->
     cnt st j = 0 /\ exists k, In j (nth k nbs []) /\ valid st k = false) ->
  (forall j, (j < n)%nat -> valid st j = false -> cnt st j = 0 \/ (i <= j)%nat) ->
  remove_loop nbs min_neighbors depth i k st = Some st' ->
  (forall j, nth j v0 false = false -> valid st' j = false) /\
  (forall j, nth j v0 false = true -> valid st' j = false ->
     exists k, In j (nth k nbs []) /\ valid st' k = false) /\
  (forall j, (j < n)%nat -> valid st' j = false -> cnt st' j = 0).
Proof.
  induction k as [|k IH]; intros i st st' Hik H1 H2 H3 Hr; simpl in Hr.
  - injection Hr as <-. split; [exact H1|]. split.
    + intros j Hj1 Hj2. apply H2; assumption.
    + intros j Hj Hv. destruct (H3 j Hj Hv); [assumption|lia].
  - destruct (valid st i) eqn:Ei; simpl in Hr.
    + apply (IH (S i) st); [lia|exact H1|exact H2| |exact Hr].
      intros j Hj Hv. destruct (H3 j Hj Hv) as [H|H]; [left; exact H|].
      right. destruct (Nat.eq_dec i j) as [<-|]; [congruence|lia].
    + destruct (clear_neighbors nbs min_neighbors depth i st) as [st1|] eqn:Ec; [|discriminate].
      destruct (clear_neighbors_cleared depth i st st1 Ei Ec) as (A & B & C & Hi).
      apply (IH (S i) st1); [lia| | | |exact Hr].
      * intros j Hj. apply A, H1, Hj.
      * intros j Hj1 Hj2. destruct (valid st j) eqn:Ej.
        -- apply C; assumption.
        -- destruct (H2 j Hj1 Ej) as (Hc & k' & Hk & Hkv). split.
           ++ destruct (Nat.eq_dec j i) as [->|Hji]; [exact Hi|].
              rewrite B by assumption. exact Hc.
           ++ exists k'. split; [exact Hk|]. apply A, Hkv.
      * intros j Hj Hv. destruct (valid st j) eqn:Ej.
        -- left. apply (C j Ej Hv).
        -- destruct (Nat.eq_dec j i) as [->|Hji]; [left; exact Hi|].
           rewrite B by assumption. destruct (H3 j Hj Ej) as [H|H]; [left; exact H|right; lia].
Qed.

End Dangling.

(** X8: [remove_dangling] never makes an invalid site valid; every site it
    turns invalid is a neighbour of a site that is invalid at the end; and
    it leaves the neighbour count of every invalid site at 0. *)
Theorem remove_dangling_invariants (foundation : Foundation) (min_neighbors : Z)
    (st : DanglingState) (Hst : remove_dangling foundation min_neighbors = Some st) :
  (forall i, nth i (is_valid foundation) false = false -> nth i (states st) false = false) /\
  (forall i, nth i (is_valid foundation) false = true -> nth i (states st) false = false ->
     exists k, In i (nth k (neighbours foundation) []) /\ nth k (states st) false = false) /\
  (forall i, (i < get_num_sites foundation)%nat -> nth i (states st) false = false ->
     nth i (neighbor_count st) 0 = 0).
Proof.
  unfold remove_dangling in Hst.
  apply (remove_loop_cleared _ _ _ _ (is_valid foundation) _ 0 _ _ eq_refl) in Hst; simpl.
  - exact Hst.
  - auto.
  - intros j H1 H2. simpl in *. congruence.
  - intros j _ _. right. lia.
Qed.

Lemma remove_loop_all_valid (nbs : list (list nat)) (min_neighbors : Z) (depth : nat) :
  forall k i st, (forall j, (i <= j < i + k)%nat -> nth j (states st) false = true) ->
  remove_loop nbs min_neighbors depth i k st = Some st.
Proof.
  induction k as [|k IH]; intros i st Hv; simpl; [reflexivity|].
  rewrite (Hv i) by lia. simpl. apply IH. intros j Hj. apply Hv. lia.
Qed.

(** X9: on a foundation whose sites are all valid (no site cut away by the
    shape), [remove_dangling] changes nothing: no [clear_neighbors] call is
    made and the counts stay those of [count_neighbors], whatever
    [min_neighbors] is. *)
Theorem remove_dangling_all_valid (foundation : Foundation) (min_neighbors : Z)
    (Hall : forallb (fun b => b) (is_valid foundation) = true) :
  remove_dangling foundation min_neighbors =
    Some (mkDanglingState (is_valid foundation) (count_neighbors foundation) 0).
Proof.
  unfold remove_dangling. apply remove_loop_all_valid.
  intros j Hj. simpl. rewrite forallb_forall in Hall. apply Hall.
  apply nth_In. unfold get_num_sites in Hj. lia.
Qed.

End FoundationMore.

(* ------------------------------------------------------------------ *)
(** ** Witnesses of the further properties at concrete inputs *)

Module ExtraWitnesses.
Import Num NumMore Foundation FoundationMore.

Lemma arrayref_accepted_and_matched_witness :
  match VariantArrayConstRef float [double; complex_float; complex_double]
          (arrayref complex_float 4096 8) with
  | Ok v =>
      vref v = mkArrayRef (get_tag complex_float) true 4096 1 8 /\
      match_ v c_scalar [] =
        Returned (c_scalar (MakeContainer complex_float (arrayref complex_float 4096 8)))
                 ([] ++ [MakeContainer complex_float (arrayref complex_float 4096 8)])
  | Throw _ => False
  end.
Proof.
  apply (arrayref_accepted_and_matched float [double; complex_float; complex_double]
           complex_float 4096 8 c_scalar []).
  simpl; tauto.
Defined.





Lemma primitive_bounds_centered_witness :
  let bounds := primitive_bounds (mkArray3i 5 4 1) in
  get (fst bounds) 1 <= 0 <= get (snd bounds) 1 /\
  get (shape_size bounds) 1 = get (mkArray3i 5 4 1) 1 /\
  get (fst bounds) 1 = - (get (mkArray3i 5 4 1) 1 / 2).
Proof. apply (primitive_bounds_centered (mkArray3i 5 4 1) 1); simpl; lia. Defined.

(** The four nearest-neighbour hoppings of a square lattice. *)
Definition square_hoppings : list Array3i :=
  [mkArray3i 1 0 0; mkArray3i (-1) 0 0; mkArray3i 0 1 0; mkArray3i 0 (-1) 0].

Lemma count_site_neighbors_in_bounds_witness :
  count_site_neighbors (mkArray3i 0 0 0) (mkArray3i 2 2 1) square_hoppings =
    Z.of_nat (length (filter (fun r => negb (out_of_bounds (add3 (mkArray3i 0 0 0) r)
                                                  (mkArray3i 2 2 1))) square_hoppings)) /\
  0 <= count_site_neighbors (mkArray3i 0 0 0) (mkArray3i 2 2 1) square_hoppings
    <= Z.of_nat (length square_hoppings).
Proof.
  apply (count_site_neighbors_in_bounds (mkArray3i 0 0 0) (mkArray3i 2 2 1) square_hoppings).
  simpl; lia.
Defined.

(** A three-site chain whose first site is cut away. *)
Definition chain : Foundation := mkFoundation [false; true; true] [[1%nat]; [0%nat; 2%nat]; [1%nat]].
Definition chain_cleared : DanglingState := mkDanglingState [false; false; false] [0; 0; 0] 2.

Lemma remove_dangling_invariants_witness :
  remove_dangling chain 2 = Some chain_cleared /\
  (forall i, nth i (is_valid chain) false = false -> nth i (states chain_cleared) false = false) /\
  (forall i, nth i (is_valid chain) false = true -> nth i (states chain_cleared) false = false ->
     exists k, In i (nth k (neighbours chain) []) /\ nth k (states chain_cleared) false = false) /\
  (forall i, (i < get_num_sites chain)%nat -> nth i (states chain_cleared) false = false ->
     nth i (neighbor_count chain_cleared) 0 = 0).
Proof.
  assert (H : remove_dangling chain 2 = Some chain_cleared) by (vm_compute; reflexivity).
  split; [exact H|]. apply (remove_dangling_invariants chain 2 chain_cleared H).
Defined.

(** A two-site foundation with both sites kept. *)
Definition pair_sites : Foundation := mkFoundation [true; true] [[1%nat]; [0%nat]].

Lemma remove_dangling_all_valid_witness :
  remove_dangling pair_sites 3 =
    Some (mkDanglingState (is_valid pair_sites) (count_neighbors pair_sites) 0).
Proof. apply (remove_dangling_all_valid pair_sites 3). reflexivity. Defined.

End ExtraWitnesses.
